(** * kesai: the room-synchronisation server

    A shallow embedding of the Socket.IO back end (the server file with
    [roomStore], [updateRoomState] and the four [socket.on] handlers) and
    the properties its specification states about it.

    Modelling choices, all read off the source:
    - [roomStore] is a JavaScript [Map<string, RoomState>]: a [gmap] keyed
      by strings.  Every stored object is created by [createRoom] and is
      reachable from one key only, so mutation in place followed by
      [roomStore.set] is an insertion at that key.
    - [currentTime] and [lastKnownTime] are JavaScript numbers that the
      server only copies; they are integers here ([Z]).
    - [type] and [state] are strings at run time (the TypeScript unions are
      erased), so both are strings here and an event whose [type] is none
      of the three literals is a possible input.
    - [socket.rooms] is a JavaScript [Set]: a duplicate-free list in
      insertion order.  A socket is put in the room named by its own id
      when it connects, which is what line 120 of the server filters out.
    - [emit] serialises its payload when it is called, so an emission
      carries a value, and a multicast is one emission with the set of
      sockets it reaches.  [socket.to(room)] excepts the room named by the
      sender's socket id, so it skips every socket in that room. *)

From stdpp Require Import gmap strings list fin_maps.
From Stdlib Require Import ZArith.

Local Open Scope string_scope.

(** ** Data model (type definitions of the server file) *)

Record VideoEventPayload := {
  type : string;
  currentTime : Z
}.

Record RoomState := {
  roomId : string;
  videoUrl : string;
  lastKnownTime : Z;
  state : string
}.

(** Messages a client sends, one constructor per [socket.on] channel. *)
Inductive ClientMsg :=
  | createRoom (rid url : string)
  | joinRoom (rid : string)
  | updateRoom (rid url : string)
  | videoEvent (data : VideoEventPayload).

(** Messages the server emits: channel [syncVideo] carries a full
    [RoomState], channel [videoEvent] carries the event as received. *)
Inductive ServerMsg :=
  | syncVideo (snapshot : RoomState)
  | relayEvent (data : VideoEventPayload).

(** One call of [emit]: the sockets reached and what they are sent. *)
Record Emit := {
  recipients : gset string;
  message : ServerMsg
}.

(** The process state: the room store and, per connected socket id, its
    [socket.rooms]. *)
Record Server := {
  roomStore : gmap string RoomState;
  socketRooms : gmap string (list string)
}.

Definition init : Server := {| roomStore := ∅; socketRooms := ∅ |}.

(** ** State reconciler *)

(** The branch chain inside [if (room)] of [updateRoomState]. *)
Definition reconcile (event : VideoEventPayload) (room : RoomState) : RoomState :=
  if decide (type event = "play") then
    {| roomId := roomId room; videoUrl := videoUrl room;
       lastKnownTime := currentTime event; state := "playing" |}
  else if decide (type event = "pause") then
    {| roomId := roomId room; videoUrl := videoUrl room;
       lastKnownTime := currentTime event; state := "paused" |}
  else if decide (type event = "seek") then
    {| roomId := roomId room; videoUrl := videoUrl room;
       lastKnownTime := currentTime event; state := state room |}
  else room.

Definition updateRoomState (rid : string) (event : VideoEventPayload)
    (store : gmap string RoomState) : gmap string RoomState :=
  match store !! rid with
  | Some room => <[rid := reconcile event room]> store
  | None => store
  end.

(** ** Transport: room membership and multicast *)

(** [Set.prototype.add]: no effect on an element already present. *)
Definition set_add (x : string) (l : list string) : list string :=
  if decide (x ∈ l) then l else (l ++ [x])%list.

(** [socket.rooms] of socket [sid]; no rooms for a socket not connected. *)
Definition socket_rooms (s : Server) (sid : string) : list string :=
  default [] (socketRooms s !! sid).

(** [socket.join(rid)]. *)
Definition join (sid rid : string) (m : gmap string (list string))
    : gmap string (list string) :=
  alter (set_add rid) sid m.

(** The broadcast group of [rid]: the connected sockets that are in it. *)
Definition members (s : Server) (rid : string) : gset string :=
  dom (filter (λ kv : string * list string, rid ∈ kv.2) (socketRooms s)).

(** [socket.emit], [io.to(rid).emit] and [socket.to(rid).emit].  The
    last one is a broadcast to [rid] with the room named by the sender's
    socket id as exception: Socket.IO leaves out every socket that is in
    that room, which holds the sender and whoever else joined it. *)
Definition socket_emit (sid : string) (m : ServerMsg) : Emit :=
  {| recipients := {[ sid ]}; message := m |}.

Definition io_to_emit (s : Server) (rid : string) (m : ServerMsg) : Emit :=
  {| recipients := members s rid; message := m |}.

Definition socket_to_emit (s : Server) (sid rid : string) (m : ServerMsg) : Emit :=
  {| recipients := members s rid ∖ members s sid; message := m |}.

(** ** Session manager: the handlers registered on a connection *)

Definition on_createRoom (sid rid url : string) (s : Server) : Server * list Emit :=
  let roomState :=
    {| roomId := rid; videoUrl := url; lastKnownTime := 0; state := "paused" |} in
  ({| roomStore := <[rid := roomState]> (roomStore s);
      socketRooms := join sid rid (socketRooms s) |},
   [socket_emit sid (syncVideo roomState)]).

Definition on_joinRoom (sid rid : string) (s : Server) : Server * list Emit :=
  let s1 := {| roomStore := roomStore s;
               socketRooms := join sid rid (socketRooms s) |} in
  match roomStore s1 !! rid with
  | Some roomState => (s1, [socket_emit sid (syncVideo roomState)])
  | None =>
      (s1, [socket_emit sid
              (syncVideo {| roomId := rid; videoUrl := "";
                            lastKnownTime := 0; state := "paused" |})])
  end.

Definition on_updateRoom (sid rid url : string) (s : Server) : Server * list Emit :=
  match roomStore s !! rid with
  | Some roomState =>
      let roomState' :=
        {| roomId := roomId roomState; videoUrl := url;
           lastKnownTime := lastKnownTime roomState;
           state := state roomState |} in
      let s1 := {| roomStore := <[rid := roomState']> (roomStore s);
                   socketRooms := socketRooms s |} in
      (s1, [io_to_emit s1 rid (syncVideo roomState')])
  | None => (s, [])
  end.

(** The rooms a [videoEvent] of [sid] is applied to (line 120). *)
Definition event_rooms (s : Server) (sid : string) : list string :=
  filter (λ room : string, room ≠ sid) (socket_rooms s sid).

(** The body of [rooms.forEach]: reconcile, then relay to the others. *)
Definition event_body (sid : string) (data : VideoEventPayload)
    (acc : Server * list Emit) (rid : string) : Server * list Emit :=
  let s1 := {| roomStore := updateRoomState rid data (roomStore acc.1);
               socketRooms := socketRooms acc.1 |} in
  (s1, (acc.2 ++ [socket_to_emit s1 sid rid (relayEvent data)])%list).

Definition on_videoEvent (sid : string) (data : VideoEventPayload) (s : Server)
    : Server * list Emit :=
  foldl (event_body sid data) (s, []) (event_rooms s sid).

(** A connection opens (the socket enters the room of its own id), sends a
    message, or closes (the transport drops its memberships; the handler
    only logs). *)
Inductive Input :=
  | connection (sid : string)
  | incoming (sid : string) (m : ClientMsg)
  | disconnect (sid : string).

Definition dispatch (sid : string) (m : ClientMsg) (s : Server) : Server * list Emit :=
  match m with
  | createRoom rid url => on_createRoom sid rid url s
  | joinRoom rid => on_joinRoom sid rid s
  | updateRoom rid url => on_updateRoom sid rid url s
  | videoEvent data => on_videoEvent sid data s
  end.

Definition handle (i : Input) (s : Server) : Server * list Emit :=
  match i with
  | connection sid =>
      ({| roomStore := roomStore s;
          socketRooms := <[sid := [sid]]> (socketRooms s) |}, [])
  | incoming sid m => dispatch sid m s
  | disconnect sid =>
      ({| roomStore := roomStore s;
          socketRooms := delete sid (socketRooms s) |}, [])
  end.

(** The server after a sequence of inputs, each handled to completion. *)
Definition run (trace : list Input) (s : Server) : Server :=
  foldl (λ acc i, (handle i acc).1) s trace.

(** Everything emitted while handling a sequence of inputs, in order. *)
Fixpoint outputs (trace : list Input) (s : Server) : list Emit :=
  match trace with
  | [] => []
  | i :: rest => ((handle i s).2 ++ outputs rest (handle i s).1)%list
  end.

(** Socket [sid] is sent [m] by some emission of [out]. *)
Definition delivered (out : list Emit) (sid : string) (m : ServerMsg) : Prop :=
  ∃ e, e ∈ out ∧ sid ∈ recipients e ∧ message e = m.

(** A sequence of playback events folded into the room store at [rid]. *)
Definition applyEvents (rid : string) (events : list VideoEventPayload)
    (store : gmap string RoomState) : gmap string RoomState :=
  foldl (λ st ev, updateRoomState rid ev st) store events.

Definition playback (event : VideoEventPayload) : Prop :=
  type event = "play" ∨ type event = "pause" ∨ type event = "seek".

(** The state a room is created in. *)
Definition created (rid url : string) : RoomState :=
  {| roomId := rid; videoUrl := url; lastKnownTime := 0; state := "paused" |}.

(** The well-formedness the specification gives a stored room, and the
    assumption on inputs it is stated under. *)
Definition room_ok (room : RoomState) : Prop :=
  (0 ≤ lastKnownTime room)%Z ∧ (state room = "playing" ∨ state room = "paused").

Definition store_ok (s : Server) : Prop :=
  ∀ rid room, roomStore s !! rid = Some room → room_ok room.

Definition input_ok (i : Input) : Prop :=
  match i with
  | incoming _ (videoEvent data) => (0 ≤ currentTime data)%Z
  | _ => True
  end.

(** ** Concrete events, rooms and sessions used as test inputs *)

Definition room_v1 : RoomState :=
  {| roomId := "R1"; videoUrl := "v1"; lastKnownTime := 0; state := "paused" |}.

Definition play_at (t : Z) : VideoEventPayload := {| type := "play"; currentTime := t |}.
Definition pause_at (t : Z) : VideoEventPayload := {| type := "pause"; currentTime := t |}.
Definition seek_to (t : Z) : VideoEventPayload := {| type := "seek"; currentTime := t |}.
Definition stop_at (t : Z) : VideoEventPayload := {| type := "stop"; currentTime := t |}.

(** Sockets "a" and "b" share room "R1", created by "a"; socket "c" is
    alone in room "R2", which nobody created. *)
Definition two_rooms : Server :=
  run [connection "a"; incoming "a" (createRoom "R1" "v1");
       connection "b"; incoming "b" (joinRoom "R1");
       connection "c"; incoming "c" (joinRoom "R2")] init.




(** A session touching every kind of input. *)
Definition session : list Input :=
  [connection "a"; incoming "a" (createRoom "R1" "v1");
   connection "b"; incoming "b" (joinRoom "R1");
   incoming "b" (videoEvent (play_at 1000));
   incoming "a" (updateRoom "R1" "v2");
   incoming "a" (videoEvent (seek_to 7000));
   disconnect "b"].

(** ** Further predicates and inputs for the properties beyond the claims *)

(** Every room is stored under the id it carries. *)
Definition key_ok (s : Server) : Prop :=
  ∀ rid room, roomStore s !! rid = Some room → roomId room = rid.

(** An emission that carries a snapshot carries a well-formed one. *)
Definition snapshot_ok (e : Emit) : Prop :=
  match message e with
  | syncVideo snapshot => room_ok snapshot
  | relayEvent _ => True
  end.

(** An event that is neither a play nor a pause: a seek, or a type the
    reconciler does not know. *)
Definition keeps_state (event : VideoEventPayload) : Prop :=
  type event ≠ "play" ∧ type event ≠ "pause".

(** Every connected socket is in the room named by its own socket id. *)
Definition own_room_ok (s : Server) : Prop :=
  ∀ sid l, socketRooms s !! sid = Some l → sid ∈ l.



(** An input that does not come from socket [b]. *)
Definition not_from (b : string) (i : Input) : Prop :=
  match i with
  | connection sid | incoming sid _ | disconnect sid => sid ≠ b
  end.

(** Sockets "a" and "b" are together in both "R1" and "R2"; "a" created
    "R1" only. *)
Definition shared_two : Server :=
  run [connection "a"; incoming "a" (createRoom "R1" "v1");
       incoming "a" (joinRoom "R2");
       connection "b"; incoming "b" (joinRoom "R1");
       incoming "b" (joinRoom "R2")] init.

(** ** The reconciler *)

Section Reconciler.
Implicit Types (store : gmap string RoomState) (ev : VideoEventPayload).
Implicit Types (room : RoomState) (rid : string).

Lemma reconcile_play ev room :
  type ev = "play" →
  reconcile ev room =
    {| roomId := roomId room; videoUrl := videoUrl room;
       lastKnownTime := currentTime ev; state := "playing" |}.
Proof. intros H. unfold reconcile. rewrite H. reflexivity. Qed.

Lemma reconcile_pause ev room :
  type ev = "pause" →
  reconcile ev room =
    {| roomId := roomId room; videoUrl := videoUrl room;
       lastKnownTime := currentTime ev; state := "paused" |}.
Proof. intros H. unfold reconcile. rewrite H. reflexivity. Qed.

Lemma reconcile_seek ev room :
  type ev = "seek" →
  reconcile ev room =
    {| roomId := roomId room; videoUrl := videoUrl room;
       lastKnownTime := currentTime ev; state := state room |}.
Proof. intros H. unfold reconcile. rewrite H. reflexivity. Qed.

Lemma reconcile_other ev room : ¬ playback ev → reconcile ev room = room.
Proof.
  intros H. unfold reconcile, playback in *.
  repeat case_decide; tauto.
Qed.

(** The identifier and the video URL are never touched by an event. *)
Lemma reconcile_roomId ev room : roomId (reconcile ev room) = roomId room.
Proof. unfold reconcile. repeat case_decide; reflexivity. Qed.

Lemma reconcile_videoUrl ev room : videoUrl (reconcile ev room) = videoUrl room.
Proof. unfold reconcile. repeat case_decide; reflexivity. Qed.

(** Applying the same event a second time changes nothing more. *)
Lemma reconcile_idemp ev room :
  reconcile ev (reconcile ev room) = reconcile ev room.
Proof. unfold reconcile. repeat case_decide; reflexivity. Qed.

Lemma updateRoomState_lookup rid ev store :
  updateRoomState rid ev store !! rid = reconcile ev <$> store !! rid.
Proof.
  unfold updateRoomState. destruct (store !! rid) as [room|] eqn:E.
  - by rewrite lookup_insert_eq.
  - by rewrite E.
Qed.

Lemma updateRoomState_lookup_ne rid r ev store :
  rid ≠ r → updateRoomState rid ev store !! r = store !! r.
Proof.
  intros Hne. unfold updateRoomState.
  destruct (store !! rid); [by rewrite lookup_insert_ne | done].
Qed.

Lemma updateRoomState_absent rid ev store :
  store !! rid = None → updateRoomState rid ev store = store.
Proof. intros H. unfold updateRoomState. by rewrite H. Qed.

(** No event creates or removes a room. *)
Lemma updateRoomState_dom rid ev store r :
  is_Some (updateRoomState rid ev store !! r) ↔ is_Some (store !! r).
Proof.
  destruct (decide (rid = r)) as [->|Hne].
  - rewrite updateRoomState_lookup. apply fmap_is_Some.
  - by rewrite updateRoomState_lookup_ne.
Qed.

Lemma applyEvents_snoc rid evs ev store :
  applyEvents rid (evs ++ [ev]) store =
  updateRoomState rid ev (applyEvents rid evs store).
Proof. unfold applyEvents. by rewrite foldl_app. Qed.

Lemma applyEvents_present rid evs store :
  is_Some (store !! rid) → is_Some (applyEvents rid evs store !! rid).
Proof.
  revert store. induction evs as [|ev evs IH]; intros store H; [exact H|].
  apply IH. by apply updateRoomState_dom.
Qed.
End Reconciler.

(** C1. Whatever events a room present in the store has already received,
    after one more play, pause or seek event its [lastKnownTime] is that
    event's [currentTime], and its [state] is "playing" after a play,
    "paused" after a pause and what it was before after a seek. *)
Theorem C1_event_sets_time_and_state
    (store : gmap string RoomState) (rid : string) (room : RoomState)
    (pre : list VideoEventPayload) (ev : VideoEventPayload) :
  store !! rid = Some room →
  playback ev →
  ∃ before after,
    applyEvents rid pre store !! rid = Some before ∧
    applyEvents rid (pre ++ [ev]) store !! rid = Some after ∧
    lastKnownTime after = currentTime ev ∧
    (type ev = "play" → state after = "playing") ∧
    (type ev = "pause" → state after = "paused") ∧
    (type ev = "seek" → state after = state before).
Proof.
  intros Hroom Hev.
  destruct (applyEvents_present rid pre store) as [before Hb]; [by eexists|].
  exists before, (reconcile ev before).
  split; [exact Hb|]. split.
  { by rewrite applyEvents_snoc, updateRoomState_lookup, Hb. }
  destruct Hev as [H|[H|H]].
  - rewrite (reconcile_play _ _ H). simpl. rewrite H. repeat split; done.
  - rewrite (reconcile_pause _ _ H). simpl. rewrite H. repeat split; done.
  - rewrite (reconcile_seek _ _ H). simpl. rewrite H. repeat split; done.
Qed.

Lemma C1_witness :
  ∃ before after,
    applyEvents "R1" [play_at 1000; pause_at 2500] {[ "R1" := room_v1 ]} !! "R1"
      = Some before ∧
    applyEvents "R1" ([play_at 1000; pause_at 2500] ++ [seek_to 7000])
      {[ "R1" := room_v1 ]} !! "R1" = Some after ∧
    lastKnownTime after = currentTime (seek_to 7000) ∧
    (type (seek_to 7000) = "play" → state after = "playing") ∧
    (type (seek_to 7000) = "pause" → state after = "paused") ∧
    (type (seek_to 7000) = "seek" → state after = state before).
Proof.
  apply (C1_event_sets_time_and_state {[ "R1" := room_v1 ]} "R1" room_v1).
  - reflexivity.
  - right; right; reflexivity.
Defined.

(** C10. An event whose [type] is none of "play", "pause" and "seek" leaves
    the room store as it is: the room it is applied to keeps its
    [videoUrl], [lastKnownTime] and [state], and no room appears. *)
Theorem C10_unknown_type_is_noop
    (store : gmap string RoomState) (rid : string) (ev : VideoEventPayload) :
  type ev ≠ "play" → type ev ≠ "pause" → type ev ≠ "seek" →
  updateRoomState rid ev store = store ∧
  ∀ room, store !! rid = Some room →
    updateRoomState rid ev store !! rid = Some room.
Proof.
  intros H1 H2 H3.
  assert (Hno : ¬ playback ev) by (unfold playback; tauto).
  assert (Heq : updateRoomState rid ev store = store).
  { unfold updateRoomState. destruct (store !! rid) as [room|] eqn:E; [|done].
    rewrite (reconcile_other _ _ Hno). by apply insert_id. }
  split; [exact Heq|]. intros room Hroom. by rewrite Heq.
Qed.

Lemma C10_witness :
  updateRoomState "R1" (stop_at 42) {[ "R1" := room_v1 ]} = {[ "R1" := room_v1 ]} ∧
  ∀ room, ({[ "R1" := room_v1 ]} : gmap string RoomState) !! "R1" = Some room →
    updateRoomState "R1" (stop_at 42) {[ "R1" := room_v1 ]} !! "R1" = Some room.
Proof.
  apply (C10_unknown_type_is_noop {[ "R1" := room_v1 ]} "R1" (stop_at 42));
    discriminate.
Defined.

(** ** Broadcast groups *)

Section Groups.
Implicit Types (s : Server) (sid rid : string).

Lemma elem_of_members s rid sid :
  sid ∈ members s rid ↔ rid ∈ socket_rooms s sid.
Proof.
  unfold members, socket_rooms. rewrite elem_of_dom. split.
  - intros [l Hl]. apply map_lookup_filter_Some in Hl as [Hl Hin].
    rewrite Hl. exact Hin.
  - destruct (socketRooms s !! sid) as [l|] eqn:E; simpl; intros Hin.
    + exists l. apply map_lookup_filter_Some. by split.
    + by apply elem_of_nil in Hin.
Qed.

(** A group depends on the memberships only, not on the room store. *)
Lemma members_ext s1 s2 rid :
  socketRooms s1 = socketRooms s2 → members s1 rid = members s2 rid.
Proof. unfold members. by intros ->. Qed.

Lemma socket_to_emit_ext s1 s2 sid rid m :
  socketRooms s1 = socketRooms s2 →
  socket_to_emit s1 sid rid m = socket_to_emit s2 sid rid m.
Proof.
  intros H. unfold socket_to_emit.
  by rewrite (members_ext s1 s2 rid H), (members_ext s1 s2 sid H).
Qed.

Lemma elem_of_event_rooms s sid rid :
  rid ∈ event_rooms s sid ↔ rid ∈ socket_rooms s sid ∧ rid ≠ sid.
Proof. unfold event_rooms. rewrite list_elem_of_filter. tauto. Qed.

Lemma delivered_singleton e sid m :
  delivered [e] sid m ↔ sid ∈ recipients e ∧ message e = m.
Proof.
  unfold delivered. split.
  - intros (e' & ->%list_elem_of_singleton & H). exact H.
  - intros H. exists e. split; [by apply list_elem_of_singleton | exact H].
Qed.
End Groups.

(** ** Lifecycle handlers *)

(** C3. Joining a room that is not in the store answers the requester, and
    nobody else, with the default snapshot: the requested id, an empty
    video URL, time 0 and "paused". *)
Theorem C3_join_unknown_room_default_snapshot (s : Server) (sid rid : string) :
  roomStore s !! rid = None →
  (on_joinRoom sid rid s).2 =
    [ {| recipients := {[ sid ]};
         message := syncVideo {| roomId := rid; videoUrl := "";
                                 lastKnownTime := 0; state := "paused" |} |} ] ∧
  delivered (on_joinRoom sid rid s).2 sid
    (syncVideo {| roomId := rid; videoUrl := "";
                  lastKnownTime := 0; state := "paused" |}).
Proof.
  intros Hnone.
  assert (Hout : (on_joinRoom sid rid s).2 =
    [socket_emit sid (syncVideo {| roomId := rid; videoUrl := "";
                                   lastKnownTime := 0; state := "paused" |})]).
  { unfold on_joinRoom. simpl. by rewrite Hnone. }
  split; [exact Hout|].
  rewrite Hout. apply delivered_singleton. simpl. split; [set_solver | done].
Qed.

Lemma C3_witness :
  roomStore two_rooms !! "R9" = None ∧
  (on_joinRoom "b" "R9" two_rooms).2 =
    [ {| recipients := {[ "b" ]};
         message := syncVideo {| roomId := "R9"; videoUrl := "";
                                 lastKnownTime := 0; state := "paused" |} |} ] ∧
  delivered (on_joinRoom "b" "R9" two_rooms).2 "b"
    (syncVideo {| roomId := "R9"; videoUrl := "";
                  lastKnownTime := 0; state := "paused" |}).
Proof.
  split; [reflexivity|].
  apply (C3_join_unknown_room_default_snapshot two_rooms "b" "R9").
  reflexivity.
Defined.

(** C4. After two [createRoom] calls with the same room id, by any two
    sockets and with any two video URLs, the store is the one the second
    call alone gives: at that id it holds the second URL at time 0 and
    "paused", which is what the second call stores in an empty store, and
    every other room is as it was before the first call. *)
Theorem C4_createRoom_twice_overwrites
    (s : Server) (sid1 sid2 rid url1 url2 : string) :
  let s2 := (on_createRoom sid2 rid url2 (on_createRoom sid1 rid url1 s).1).1 in
  roomStore s2 !! rid =
    Some {| roomId := rid; videoUrl := url2; lastKnownTime := 0; state := "paused" |} ∧
  roomStore s2 !! rid = roomStore (on_createRoom sid2 rid url2 init).1 !! rid ∧
  roomStore s2 = roomStore (on_createRoom sid2 rid url2 s).1 ∧
  (∀ r, r ≠ rid → roomStore s2 !! r = roomStore s !! r).
Proof.
  simpl. repeat split.
  - by rewrite lookup_insert_eq.
  - by rewrite !lookup_insert_eq.
  - by rewrite insert_insert_eq.
  - intros r Hr. by rewrite !lookup_insert_ne.
Qed.

(** C5. [updateRoom] on a room in the store replaces its video URL only:
    the room keeps its id, time and playback state, every other room and
    every membership is as before, and the one emission is the updated
    snapshot addressed to the whole group of the room, so every member
    receives it, the sender too when it is one. *)
Theorem C5_updateRoom_changes_url_only
    (s : Server) (sid rid url : string) (room : RoomState) :
  roomStore s !! rid = Some room →
  let updated :=
    {| roomId := roomId room; videoUrl := url;
       lastKnownTime := lastKnownTime room; state := state room |} in
  let res := on_updateRoom sid rid url s in
  roomStore res.1 !! rid = Some updated ∧
  (∀ r, r ≠ rid → roomStore res.1 !! r = roomStore s !! r) ∧
  socketRooms res.1 = socketRooms s ∧
  res.2 = [ {| recipients := members s rid; message := syncVideo updated |} ] ∧
  (∀ b, b ∈ members s rid → delivered res.2 b (syncVideo updated)) ∧
  (sid ∈ members s rid → delivered res.2 sid (syncVideo updated)).
Proof.
  intros Hroom updated res.
  assert (Hres : res =
    ({| roomStore := <[rid := updated]> (roomStore s);
        socketRooms := socketRooms s |},
     [ {| recipients := members s rid; message := syncVideo updated |} ])).
  { subst res updated. unfold on_updateRoom. rewrite Hroom. reflexivity. }
  rewrite Hres. simpl.
  assert (Hall : ∀ b, b ∈ members s rid →
    delivered [ {| recipients := members s rid; message := syncVideo updated |} ]
      b (syncVideo updated)).
  { intros b Hb. by apply delivered_singleton. }
  repeat split.
  - by rewrite lookup_insert_eq.
  - intros r Hr. by rewrite lookup_insert_ne.
  - exact Hall.
  - apply Hall.
Qed.

Lemma C5_witness :
  roomStore two_rooms !! "R1" = Some room_v1 ∧
  roomStore (on_updateRoom "a" "R1" "v2" two_rooms).1 !! "R1" =
    Some {| roomId := "R1"; videoUrl := "v2"; lastKnownTime := 0; state := "paused" |} ∧
  delivered (on_updateRoom "a" "R1" "v2" two_rooms).2 "a"
    (syncVideo {| roomId := "R1"; videoUrl := "v2";
                  lastKnownTime := 0; state := "paused" |}).
Proof.
  assert (H : roomStore two_rooms !! "R1" = Some room_v1) by reflexivity.
  split; [exact H|].
  pose proof (C5_updateRoom_changes_url_only two_rooms "a" "R1" "v2" room_v1 H)
    as (Hst & _ & _ & _ & _ & Hsender).
  split; [exact Hst|].
  apply Hsender. apply elem_of_members. vm_compute. apply list_elem_of_In.
  right; left; reflexivity.
Defined.

(** C6. [updateRoom] on a room id that is not in the store does nothing:
    the server state, store and memberships, is returned as it was, no
    room is created, and nothing is emitted. *)
Theorem C6_updateRoom_unknown_room_noop (s : Server) (sid rid url : string) :
  roomStore s !! rid = None →
  on_updateRoom sid rid url s = (s, []) ∧
  roomStore (on_updateRoom sid rid url s).1 !! rid = None ∧
  ∀ b m, ¬ delivered (on_updateRoom sid rid url s).2 b m.
Proof.
  intros Hnone.
  assert (Hres : on_updateRoom sid rid url s = (s, [])).
  { unfold on_updateRoom. by rewrite Hnone. }
  rewrite Hres. simpl. repeat split; [exact Hnone|].
  intros b m (e & He & _). by apply elem_of_nil in He.
Qed.

Lemma C6_witness :
  roomStore two_rooms !! "R2" = None ∧
  on_updateRoom "c" "R2" "v2" two_rooms = (two_rooms, []).
Proof.
  split; [reflexivity|].
  apply (C6_updateRoom_unknown_room_noop two_rooms "c" "R2" "v2").
  reflexivity.
Defined.

(** C8. [joinRoom] never writes the room store, whether the room exists or
    not: the store after the call is the store before it, so no stored
    room changes and the default snapshot sent for an unknown room is not
    stored. *)
Theorem C8_joinRoom_keeps_store (s : Server) (sid rid : string) :
  roomStore (on_joinRoom sid rid s).1 = roomStore s ∧
  (∀ r, roomStore (on_joinRoom sid rid s).1 !! r = roomStore s !! r) ∧
  roomStore (handle (incoming sid (joinRoom rid)) s).1 = roomStore s.
Proof.
  assert (H : roomStore (on_joinRoom sid rid s).1 = roomStore s).
  { unfold on_joinRoom. simpl. by destruct (roomStore s !! rid). }
  split; [exact H|]. split; [|exact H]. intros r. by rewrite H.
Qed.

(** ** The [videoEvent] loop *)

Section EventLoop.
Variables (a : string) (data : VideoEventPayload).
Implicit Types (s : Server) (out : list Emit) (l : list string).

(** The loop never touches the memberships. *)
Lemma event_loop_socketRooms l s out :
  socketRooms (foldl (event_body a data) (s, out) l).1 = socketRooms s.
Proof.
  revert s out.
  induction l as [|r l IH]; intros s out; [done|].
  simpl. unfold event_body at 2. by rewrite IH.
Qed.

(** It emits one relay per room, in the order of the rooms. *)
Lemma event_loop_outputs l s out :
  (foldl (event_body a data) (s, out) l).2 =
  (out ++ ((λ r, socket_to_emit s a r (relayEvent data)) <$> l))%list.
Proof.
  revert s out.
  induction l as [|r l IH]; intros s out; simpl.
  - by rewrite app_nil_r.
  - unfold event_body at 2. rewrite IH. simpl. rewrite <- app_assoc. simpl.
    reflexivity.
Qed.

(** It reconciles the rooms it visits and no other. *)
Lemma event_loop_store l s out rid :
  roomStore (foldl (event_body a data) (s, out) l).1 !! rid =
  if decide (rid ∈ l) then reconcile data <$> roomStore s !! rid
  else roomStore s !! rid.
Proof.
  revert s out.
  induction l as [|r l IH]; intros s out.
  - reflexivity.
  - cbn [foldl].
    destruct (event_body a data (s, out) r) as [s1 out1] eqn:E.
    rewrite IH. unfold event_body in E. injection E as <- _.
    cbn [fst snd roomStore].
    destruct (decide (r = rid)) as [->|Hne].
    + rewrite updateRoomState_lookup.
      rewrite (decide_True (P := rid ∈ rid :: l)); [|by left].
      case_decide; [|done].
      destruct (roomStore s !! rid); simpl; [|done].
      by rewrite reconcile_idemp.
    + rewrite (updateRoomState_lookup_ne _ _ _ _ Hne).
      destruct (decide (rid ∈ l)) as [Hl|Hl].
      * rewrite decide_True; [done | by right].
      * rewrite decide_False; [done|].
        intros [Heq|Hin]%elem_of_cons; [by apply Hne | by apply Hl].
Qed.
End EventLoop.

Lemma on_videoEvent_store (a : string) (data : VideoEventPayload) (s : Server)
    (rid : string) :
  roomStore (on_videoEvent a data s).1 !! rid =
  if decide (rid ∈ event_rooms s a) then reconcile data <$> roomStore s !! rid
  else roomStore s !! rid.
Proof. apply event_loop_store. Qed.

Lemma on_videoEvent_outputs (a : string) (data : VideoEventPayload) (s : Server) :
  (on_videoEvent a data s).2 =
  (λ r, socket_to_emit s a r (relayEvent data)) <$> event_rooms s a.
Proof. unfold on_videoEvent. by rewrite event_loop_outputs. Qed.

Lemma on_videoEvent_socketRooms (a : string) (data : VideoEventPayload) (s : Server) :
  socketRooms (on_videoEvent a data s).1 = socketRooms s.
Proof. apply event_loop_socketRooms. Qed.

(** ** The invariant of the room store *)

Section Invariant.
Lemma reconcile_ok ev room :
  (0 ≤ currentTime ev)%Z → room_ok room → room_ok (reconcile ev room).
Proof.
  intros Ht [Htime Hstate]. unfold reconcile, room_ok.
  repeat case_decide; simpl; auto.
Qed.

Lemma created_ok rid url : room_ok (created rid url).
Proof. unfold room_ok, created. simpl. split; [lia | by right]. Qed.

Lemma init_ok : store_ok init.
Proof. intros rid room H. simpl in H. by rewrite lookup_empty in H. Qed.

Lemma dispatch_ok sid m s :
  input_ok (incoming sid m) → store_ok s → store_ok (dispatch sid m s).1.
Proof.
  intros Hin Hs rid room. destruct m as [r url | r | r url | data]; simpl.
  - destruct (decide (r = rid)) as [->|Hne].
    + rewrite lookup_insert_eq. intros [= <-]. apply created_ok.
    + rewrite lookup_insert_ne by done. apply Hs.
  - unfold on_joinRoom. simpl. destruct (roomStore s !! r); apply Hs.
  - unfold on_updateRoom. destruct (roomStore s !! r) as [old|] eqn:E; [|apply Hs].
    simpl. destruct (decide (r = rid)) as [->|Hne].
    + rewrite lookup_insert_eq. intros [= <-]. apply (Hs _ _ E).
    + rewrite lookup_insert_ne by done. apply Hs.
  - rewrite on_videoEvent_store. simpl in Hin.
    destruct (roomStore s !! rid) as [old|] eqn:E; case_decide; simpl;
      intros [= <-]; eauto using reconcile_ok.
Qed.

Lemma handle_ok i s : input_ok i → store_ok s → store_ok (handle i s).1.
Proof.
  destruct i as [sid | sid m | sid]; [by intros | apply dispatch_ok | by intros].
Qed.

Lemma run_ok trace s :
  Forall input_ok trace → store_ok s → store_ok (run trace s).
Proof.
  intros Htrace. revert s.
  induction Htrace as [|i trace Hi _ IH]; intros s Hs; [exact Hs|].
  apply IH. by apply handle_ok.
Qed.
End Invariant.

(** C7. When every [videoEvent] received carries a [currentTime] that is
    not negative, every room in the store after any sequence of
    connections, [createRoom], [joinRoom], [updateRoom], [videoEvent]
    messages and disconnections has a [lastKnownTime] that is not negative
    and a [state] that is "playing" or "paused"; and a room that is created
    next is stored at time 0 and "paused". *)
Theorem C7_reachable_rooms_well_formed (trace : list Input) :
  Forall input_ok trace →
  (∀ rid room, roomStore (run trace init) !! rid = Some room →
     (0 ≤ lastKnownTime room)%Z ∧
     (state room = "playing" ∨ state room = "paused")) ∧
  (∀ sid rid url,
     roomStore (run (trace ++ [incoming sid (createRoom rid url)]) init) !! rid =
     Some {| roomId := rid; videoUrl := url; lastKnownTime := 0; state := "paused" |}).
Proof.
  intros Htrace. split.
  - intros rid room. apply (run_ok trace init Htrace init_ok).
  - intros sid rid url. unfold run. rewrite foldl_app. simpl.
    by rewrite lookup_insert_eq.
Qed.

Lemma C7_witness :
  Forall input_ok session ∧
  roomStore (run session init) !! "R1" =
    Some {| roomId := "R1"; videoUrl := "v2"; lastKnownTime := 7000;
            state := "playing" |} ∧
  (0 ≤ 7000)%Z ∧ ("playing" = "playing" ∨ "playing" = "paused").
Proof.
  assert (Hok : Forall input_ok session).
  { unfold session. repeat constructor; simpl; lia. }
  assert (Hrun : roomStore (run session init) !! "R1" =
    Some {| roomId := "R1"; videoUrl := "v2"; lastKnownTime := 7000;
            state := "playing" |}) by reflexivity.
  split; [exact Hok|]. split; [exact Hrun|].
  exact (proj1 (C7_reachable_rooms_well_formed session Hok) _ _ Hrun).
Defined.

(** ** Relaying playback events *)

Section Relay.
Variables (s : Server) (a : string) (data : VideoEventPayload).

Lemma relay_elem e :
  e ∈ (on_videoEvent a data s).2 ↔
  ∃ r, r ∈ event_rooms s a ∧ e = socket_to_emit s a r (relayEvent data).
Proof.
  rewrite on_videoEvent_outputs, list_elem_of_fmap.
  split; intros (r & H1 & H2); exists r; by split.
Qed.

(** A member of a room the event is applied to is sent it, unless it is
    in the room named by the sender's socket id. *)
Lemma relay_to_others rid b :
  rid ∈ event_rooms s a → b ∈ members s rid → b ∉ members s a →
  delivered (on_videoEvent a data s).2 b (relayEvent data).
Proof.
  intros Hrid Hb Hne. exists (socket_to_emit s a rid (relayEvent data)).
  split; [apply relay_elem; eauto|]. simpl. split; [|done].
  by apply elem_of_difference.
Qed.


End Relay.







(** ** Connections closing, and a whole session *)

(** A disconnection leaves every stored room in place and takes the socket
    out of every broadcast group. *)
Lemma disconnect_keeps_store (s : Server) (sid : string) :
  roomStore (handle (disconnect sid) s).1 = roomStore s.
Proof. reflexivity. Qed.

Lemma disconnect_leaves_groups (s : Server) (sid rid : string) :
  sid ∉ members (handle (disconnect sid) s).1 rid.
Proof.
  rewrite elem_of_members. unfold socket_rooms. simpl.
  rewrite lookup_delete_eq. apply not_elem_of_nil.
Qed.

(** What the sockets are sent during [session], emission by emission. *)
Example session_outputs :
  outputs session init =
  [ socket_emit "a" (syncVideo (created "R1" "v1"));
    socket_emit "b" (syncVideo (created "R1" "v1"));
    {| recipients := {[ "a" ]}; message := relayEvent (play_at 1000) |};
    {| recipients := {[ "a"; "b" ]};
       message := syncVideo {| roomId := "R1"; videoUrl := "v2";
                               lastKnownTime := 1000; state := "playing" |} |};
    {| recipients := {[ "b" ]}; message := relayEvent (seek_to 7000) |} ].
Proof. vm_compute. reflexivity. Qed.

(** * Properties beyond the claims *)

(** ** The reconciler, composed *)

(** X1. Last write wins: a play or pause event overwrites whatever an
    earlier event did to the room, so the store after the two events is the
    store after the later one alone. *)
Theorem play_pause_overwrites_earlier_event
    (store : gmap string RoomState) (rid : string) (ev1 ev2 : VideoEventPayload) :
  type ev2 = "play" ∨ type ev2 = "pause" →
  updateRoomState rid ev2 (updateRoomState rid ev1 store) =
  updateRoomState rid ev2 store.
Proof.
  intros Hev2. unfold updateRoomState at 2.
  destruct (store !! rid) as [room|] eqn:E; [|reflexivity].
  unfold updateRoomState. rewrite lookup_insert_eq, E, insert_insert_eq.
  f_equal.
  destruct Hev2 as [H|H].
  - rewrite !(reconcile_play _ _ H). simpl.
    by rewrite reconcile_roomId, reconcile_videoUrl.
  - rewrite !(reconcile_pause _ _ H). simpl.
    by rewrite reconcile_roomId, reconcile_videoUrl.
Qed.

Lemma play_pause_overwrites_earlier_event_witness :
  updateRoomState "R1" (pause_at 10) (updateRoomState "R1" (play_at 9000)
    {[ "R1" := room_v1 ]}) =
  updateRoomState "R1" (pause_at 10) {[ "R1" := room_v1 ]}.
Proof.
  apply (play_pause_overwrites_earlier_event {[ "R1" := room_v1 ]} "R1").
  right; reflexivity.
Defined.

(** X2. Events that are neither play nor pause never start or stop
    playback: after any sequence of them a room in the store has the state
    and the video URL it had, whatever times they carried. *)
Theorem seeks_keep_playback_state
    (store : gmap string RoomState) (rid : string) (room : RoomState)
    (evs : list VideoEventPayload) :
  store !! rid = Some room →
  Forall keeps_state evs →
  ∃ after, applyEvents rid evs store !! rid = Some after ∧
           state after = state room ∧ videoUrl after = videoUrl room.
Proof.
  intros Hroom Hevs. revert store room Hroom.
  induction Hevs as [|ev evs [Hplay Hpause] _ IH]; intros store room Hroom.
  - exists room. by split.
  - simpl.
    destruct (IH (updateRoomState rid ev store) (reconcile ev room))
      as (after & Hafter & Hstate & Hurl).
    { by rewrite updateRoomState_lookup, Hroom. }
    exists after. split; [exact Hafter|].
    rewrite Hstate, Hurl, reconcile_videoUrl. split; [|done].
    unfold reconcile. repeat case_decide; done.
Qed.

Lemma seeks_keep_playback_state_witness :
  ∃ after,
    applyEvents "R1" [seek_to 100; stop_at 5; seek_to 7000]
      {[ "R1" := room_v1 ]} !! "R1" = Some after ∧
    state after = state room_v1 ∧ videoUrl after = videoUrl room_v1.
Proof.
  apply (seeks_keep_playback_state {[ "R1" := room_v1 ]} "R1" room_v1).
  - reflexivity.
  - repeat constructor; discriminate.
Defined.

(** X3. Events applied to two different rooms commute: the store does not
    depend on the order in which the rooms of a sender are visited. *)
Theorem events_on_distinct_rooms_commute
    (store : gmap string RoomState) (r1 r2 : string) (ev1 ev2 : VideoEventPayload) :
  r1 ≠ r2 →
  updateRoomState r1 ev1 (updateRoomState r2 ev2 store) =
  updateRoomState r2 ev2 (updateRoomState r1 ev1 store).
Proof.
  intros Hne. apply map_eq. intros r.
  destruct (decide (r1 = r)) as [->|H1].
  - rewrite updateRoomState_lookup.
    rewrite !(updateRoomState_lookup_ne r2 r) by done.
    by rewrite updateRoomState_lookup.
  - rewrite (updateRoomState_lookup_ne r1 r) by done.
    destruct (decide (r2 = r)) as [->|H2].
    + rewrite !updateRoomState_lookup.
      by rewrite (updateRoomState_lookup_ne r1 r) by done.
    + by rewrite !updateRoomState_lookup_ne by done.
Qed.

Lemma events_on_distinct_rooms_commute_witness :
  updateRoomState "R1" (play_at 5) (updateRoomState "R2" (seek_to 9)
    (roomStore shared_two)) =
  updateRoomState "R2" (seek_to 9) (updateRoomState "R1" (play_at 5)
    (roomStore shared_two)).
Proof.
  apply (events_on_distinct_rooms_commute (roomStore shared_two) "R1" "R2").
  discriminate.
Defined.

(** ** Joining a broadcast group *)

Section Joining.
Implicit Types (s : Server) (sid rid : string) (l : list string).

Lemma elem_of_set_add x y l : x ∈ set_add y l ↔ x = y ∨ x ∈ l.
Proof.
  unfold set_add. case_decide as Hy.
  - split; [by right | by intros [->|?]].
  - rewrite elem_of_app, list_elem_of_singleton. tauto.
Qed.

Lemma set_add_idemp y l : set_add y (set_add y l) = set_add y l.
Proof.
  unfold set_add at 1. rewrite decide_True; [done|].
  apply elem_of_set_add. by left.
Qed.

Lemma on_joinRoom_socketRooms sid rid s :
  socketRooms (on_joinRoom sid rid s).1 = join sid rid (socketRooms s).
Proof. unfold on_joinRoom. simpl. by destruct (roomStore s !! rid). Qed.

(** Who is in which group after [sid] joined [rid]: the sockets that were,
    and [sid] in [rid] when it is a connected socket. *)
Lemma members_join s s' sid rid r b :
  socketRooms s' = join sid rid (socketRooms s) →
  b ∈ members s' r ↔
  b ∈ members s r ∨ (b = sid ∧ r = rid ∧ sid ∈ dom (socketRooms s)).
Proof.
  intros Hjoin. rewrite !elem_of_members. unfold socket_rooms.
  rewrite Hjoin. unfold join. rewrite lookup_alter, elem_of_dom.
  destruct (decide (sid = b)) as [->|Hne].
  - destruct (socketRooms s !! b) as [l|] eqn:E; simpl.
    + rewrite elem_of_set_add. split.
      * intros [->|Hin]; [right | by left]. by eauto.
      * intros [Hin|(_ & -> & _)]; [by right | by left].
    + split; [by left|]. intros [Hin|(_ & _ & [x Hx])]; [done | discriminate].
  - split; [by left|]. intros [Hin|(-> & _)]; [done | by destruct Hne].
Qed.
End Joining.

(** X4. [joinRoom] by a connected socket adds that socket to the group of
    the room and changes no other group: nobody is removed, and no other
    room gains a member. *)
Theorem joinRoom_adds_the_sender_only (s : Server) (sid rid : string) :
  sid ∈ dom (socketRooms s) →
  members (on_joinRoom sid rid s).1 rid = members s rid ∪ {[ sid ]} ∧
  ∀ r, r ≠ rid → members (on_joinRoom sid rid s).1 r = members s r.
Proof.
  intros Hconn. split.
  - apply set_eq. intros b.
    rewrite (members_join s _ sid rid rid b (on_joinRoom_socketRooms sid rid s)).
    rewrite elem_of_union, elem_of_singleton. split.
    + intros [H|(-> & _)]; [by left | by right].
    + intros [H| ->]; [by left | by right].
  - intros r Hr. apply set_eq. intros b.
    rewrite (members_join s _ sid rid r b (on_joinRoom_socketRooms sid rid s)).
    split; [|by left]. intros [H|(_ & -> & _)]; [done | by destruct Hr].
Qed.

Lemma joinRoom_adds_the_sender_only_witness :
  "c" ∈ dom (socketRooms two_rooms) ∧
  members (on_joinRoom "c" "R1" two_rooms).1 "R1" = members two_rooms "R1" ∪ {[ "c" ]} ∧
  ∀ r, r ≠ "R1" → members (on_joinRoom "c" "R1" two_rooms).1 r = members two_rooms r.
Proof.
  assert (H : "c" ∈ dom (socketRooms two_rooms)).
  { apply (bool_decide_unpack _). vm_compute. exact I. }
  split; [exact H|].
  exact (joinRoom_adds_the_sender_only two_rooms "c" "R1" H).
Defined.

(** X5. Joining is idempotent: a second [joinRoom] of the same room by the
    same socket leaves the server as the first did and is answered with the
    same snapshot. *)
Theorem joinRoom_twice_is_joinRoom_once (s : Server) (sid rid : string) :
  on_joinRoom sid rid (on_joinRoom sid rid s).1 = on_joinRoom sid rid s.
Proof.
  assert (Hjoin : join sid rid (join sid rid (socketRooms s)) =
                  join sid rid (socketRooms s)).
  { apply map_eq. intros b. unfold join.
    destruct (decide (sid = b)) as [->|Hne].
    - rewrite !lookup_alter_eq.
      destruct (socketRooms s !! b); simpl; [|done].
      by rewrite set_add_idemp.
    - by rewrite !lookup_alter_ne. }
  unfold on_joinRoom. simpl.
  destruct (roomStore s !! rid) as [room|] eqn:E; simpl; rewrite E, Hjoin; done.
Qed.

(** X6. [createRoom] tells the creator only, and evicts nobody: the one
    emission is the fresh snapshot to the creator, so the sockets already
    in a room that is created again are sent nothing about the reset, and
    every group keeps the members it had. *)
Theorem createRoom_notifies_creator_only (s : Server) (sid rid url : string) :
  (on_createRoom sid rid url s).2 =
    [ {| recipients := {[ sid ]};
         message := syncVideo {| roomId := rid; videoUrl := url;
                                 lastKnownTime := 0; state := "paused" |} |} ] ∧
  (∀ b m, b ≠ sid → ¬ delivered (on_createRoom sid rid url s).2 b m) ∧
  (∀ r, members s r ⊆ members (on_createRoom sid rid url s).1 r).
Proof.
  split; [reflexivity|]. split.
  - intros b m Hb (e & He & Hin & _). simpl in He.
    apply list_elem_of_singleton in He as ->. simpl in Hin.
    apply elem_of_singleton in Hin. by apply Hb.
  - intros r b Hb.
    apply (members_join s _ sid rid r b); [reflexivity | by left].
Qed.

(** X7. A socket that joins right after a room was created is answered
    with the room as created: the given URL at time 0 and "paused". *)
Theorem create_then_join_replies_created_room (s : Server) (a b rid url : string) :
  (on_joinRoom b rid (on_createRoom a rid url s).1).2 =
    [ {| recipients := {[ b ]};
         message := syncVideo {| roomId := rid; videoUrl := url;
                                 lastKnownTime := 0; state := "paused" |} |} ].
Proof. unfold on_joinRoom. simpl. by rewrite lookup_insert_eq. Qed.

(** X8. A late joiner is told where playback is: after a [videoEvent] of a
    member of the room was handled, [joinRoom] is answered with the stored
    room reconciled with that event, so with the time of a play, pause or
    seek event. *)
Theorem late_joiner_gets_reconciled_room
    (s : Server) (a b rid : string) (data : VideoEventPayload) (room : RoomState) :
  rid ∈ socket_rooms s a →
  rid ≠ a →
  roomStore s !! rid = Some room →
  (on_joinRoom b rid (on_videoEvent a data s).1).2 =
    [ {| recipients := {[ b ]}; message := syncVideo (reconcile data room) |} ] ∧
  (playback data → lastKnownTime (reconcile data room) = currentTime data).
Proof.
  intros Hin Hne Hroom. split.
  - unfold on_joinRoom. simpl.
    rewrite on_videoEvent_store, Hroom.
    rewrite decide_True by (by apply elem_of_event_rooms). reflexivity.
  - intros [H|[H|H]].
    + by rewrite (reconcile_play _ _ H).
    + by rewrite (reconcile_pause _ _ H).
    + by rewrite (reconcile_seek _ _ H).
Qed.

Lemma late_joiner_gets_reconciled_room_witness :
  "R1" ∈ socket_rooms two_rooms "a" ∧ "R1" ≠ "a" ∧
  roomStore two_rooms !! "R1" = Some room_v1 ∧
  (on_joinRoom "c" "R1" (on_videoEvent "a" (play_at 1000) two_rooms).1).2 =
    [ {| recipients := {[ "c" ]};
         message := syncVideo (reconcile (play_at 1000) room_v1) |} ].
Proof.
  assert (Hin : "R1" ∈ socket_rooms two_rooms "a").
  { apply (bool_decide_unpack _). vm_compute. exact I. }
  assert (Hne : "R1" ≠ "a") by discriminate.
  assert (Hroom : roomStore two_rooms !! "R1" = Some room_v1) by reflexivity.
  split; [exact Hin|]. split; [exact Hne|]. split; [exact Hroom|].
  exact (proj1 (late_joiner_gets_reconciled_room
                  two_rooms "a" "c" "R1" (play_at 1000) room_v1 Hin Hne Hroom)).
Defined.

(** ** Updating a room *)

(** X9. [updateRoom] asks for no membership: a socket that is not in the
    room changes the stored video URL all the same, and is itself sent
    nothing, the snapshot going to the members of the room. *)
Theorem updateRoom_by_outsider
    (s : Server) (sid rid url : string) (room : RoomState) :
  roomStore s !! rid = Some room →
  sid ∉ members s rid →
  videoUrl <$> roomStore (on_updateRoom sid rid url s).1 !! rid = Some url ∧
  ∀ m, ¬ delivered (on_updateRoom sid rid url s).2 sid m.
Proof.
  intros Hroom Hout. unfold on_updateRoom. rewrite Hroom. simpl. split.
  - by rewrite lookup_insert_eq.
  - intros m (e & He & Hin & _).
    apply list_elem_of_singleton in He as ->. by apply Hout.
Qed.

Lemma updateRoom_by_outsider_witness :
  roomStore two_rooms !! "R1" = Some room_v1 ∧
  ("c" ∉ members two_rooms "R1") ∧
  (videoUrl <$> roomStore (on_updateRoom "c" "R1" "v9" two_rooms).1 !! "R1"
     = Some "v9") ∧
  ∀ m, ¬ delivered (on_updateRoom "c" "R1" "v9" two_rooms).2 "c" m.
Proof.
  assert (Hroom : roomStore two_rooms !! "R1" = Some room_v1) by reflexivity.
  assert (Hout : "c" ∉ members two_rooms "R1").
  { apply (bool_decide_unpack _). vm_compute. exact I. }
  split; [exact Hroom|]. split; [exact Hout|].
  exact (updateRoom_by_outsider two_rooms "c" "R1" "v9" room_v1 Hroom Hout).
Defined.

(** X10. Of two [updateRoom] calls for the same room the later one wins:
    server state and broadcast are those of the later call alone, whoever
    sent the two and whether the room exists or not. *)
Theorem updateRoom_twice_is_the_later_one
    (s : Server) (sid1 sid2 rid url1 url2 : string) :
  on_updateRoom sid2 rid url2 (on_updateRoom sid1 rid url1 s).1 =
  on_updateRoom sid2 rid url2 s.
Proof.
  unfold on_updateRoom at 2.
  destruct (roomStore s !! rid) as [room|] eqn:E; [|reflexivity].
  unfold on_updateRoom. simpl. rewrite lookup_insert_eq, E. simpl.
  rewrite insert_insert_eq. reflexivity.
Qed.

(** ** Playback events, as a whole handler *)

(** X11. A [videoEvent] writes nothing but times and playback states of
    rooms the sender is in: the memberships are as before, the same room
    ids are stored, every room keeps its id and its video URL, and a room
    the event is not applied to is unchanged. *)
Theorem videoEvent_frame
    (s : Server) (a : string) (data : VideoEventPayload) (r : string) :
  socketRooms (on_videoEvent a data s).1 = socketRooms s ∧
  dom (roomStore (on_videoEvent a data s).1) = dom (roomStore s) ∧
  roomId <$> roomStore (on_videoEvent a data s).1 !! r = roomId <$> roomStore s !! r ∧
  videoUrl <$> roomStore (on_videoEvent a data s).1 !! r
    = videoUrl <$> roomStore s !! r ∧
  (r ∉ event_rooms s a →
   roomStore (on_videoEvent a data s).1 !! r = roomStore s !! r).
Proof.
  split; [apply on_videoEvent_socketRooms|]. split.
  { apply set_eq. intros x. rewrite !elem_of_dom, on_videoEvent_store.
    case_decide; [apply fmap_is_Some | done]. }
  rewrite on_videoEvent_store.
  destruct (roomStore s !! r) as [room|]; case_decide; simpl;
    rewrite ?reconcile_roomId, ?reconcile_videoUrl; repeat split; done.
Qed.

(** X12. Sending the same [videoEvent] again changes nothing more: the
    store after the second handling is the store after the first, and the
    same relays go out again. *)
Theorem videoEvent_twice_same_store
    (s : Server) (a : string) (data : VideoEventPayload) :
  roomStore (on_videoEvent a data (on_videoEvent a data s).1).1 =
    roomStore (on_videoEvent a data s).1 ∧
  (on_videoEvent a data (on_videoEvent a data s).1).2 = (on_videoEvent a data s).2.
Proof.
  assert (Hrooms : event_rooms (on_videoEvent a data s).1 a = event_rooms s a).
  { unfold event_rooms, socket_rooms. by rewrite on_videoEvent_socketRooms. }
  split.
  - apply map_eq. intros r. rewrite !on_videoEvent_store, Hrooms.
    case_decide; [|done].
    destruct (roomStore s !! r); simpl; [|done]. by rewrite reconcile_idemp.
  - rewrite !on_videoEvent_outputs, Hrooms. apply list_fmap_ext.
    intros _ r _. apply socket_to_emit_ext, on_videoEvent_socketRooms.
Qed.

(** X13. The event type is not checked before relaying: an event whose
    type is none of "play", "pause" and "seek" leaves the whole server
    state as it was and is still relayed, as received, to the members of
    the sender's rooms that are not in the room named by the sender's
    socket id. *)
Theorem unknown_event_relayed_not_stored
    (s : Server) (a b rid : string) (data : VideoEventPayload) :
  ¬ playback data →
  rid ∈ socket_rooms s a → rid ≠ a →
  b ∈ members s rid → b ∉ members s a →
  roomStore (on_videoEvent a data s).1 = roomStore s ∧
  socketRooms (on_videoEvent a data s).1 = socketRooms s ∧
  delivered (on_videoEvent a data s).2 b (relayEvent data).
Proof.
  intros Hno Hin Hne Hb Hba. split; [|split].
  - apply map_eq. intros r. rewrite on_videoEvent_store.
    case_decide; [|done].
    destruct (roomStore s !! r); simpl; [|done]. by rewrite reconcile_other.
  - apply on_videoEvent_socketRooms.
  - apply (relay_to_others s a data rid); [|done..].
    by apply elem_of_event_rooms.
Qed.

Lemma unknown_event_relayed_not_stored_witness :
  roomStore (on_videoEvent "a" (stop_at 42) two_rooms).1 = roomStore two_rooms ∧
  socketRooms (on_videoEvent "a" (stop_at 42) two_rooms).1 = socketRooms two_rooms ∧
  delivered (on_videoEvent "a" (stop_at 42) two_rooms).2 "b" (relayEvent (stop_at 42)).
Proof.
  apply (unknown_event_relayed_not_stored two_rooms "a" "b" "R1" (stop_at 42)).
  - intros [H|[H|H]]; discriminate.
  - apply (bool_decide_unpack _). vm_compute. exact I.
  - discriminate.
  - apply (bool_decide_unpack _). vm_compute. exact I.
  - apply (bool_decide_unpack _). vm_compute. exact I.
Defined.

(** X14. One relay goes out per room of the sender, so a socket that
    shares two rooms with the sender, and is not in the room named by the
    sender's socket id, is sent the same event twice, by two different
    emissions. *)
Theorem shared_rooms_relay_twice
    (s : Server) (a b r1 r2 : string) (data : VideoEventPayload) :
  r1 ∈ socket_rooms s a → r1 ≠ a →
  r2 ∈ socket_rooms s a → r2 ≠ a →
  r1 ≠ r2 →
  b ∈ members s r1 → b ∈ members s r2 → b ∉ members s a →
  length (on_videoEvent a data s).2 = length (event_rooms s a) ∧
  ∃ i j e1 e2,
    i ≠ j ∧
    (on_videoEvent a data s).2 !! i = Some e1 ∧
    (on_videoEvent a data s).2 !! j = Some e2 ∧
    b ∈ recipients e1 ∧ message e1 = relayEvent data ∧
    b ∈ recipients e2 ∧ message e2 = relayEvent data.
Proof.
  intros H1 Ha1 H2 Ha2 Hne Hb1 Hb2 Hba.
  rewrite on_videoEvent_outputs. split; [apply length_fmap|].
  assert (Hr1 : r1 ∈ event_rooms s a) by by apply elem_of_event_rooms.
  assert (Hr2 : r2 ∈ event_rooms s a) by by apply elem_of_event_rooms.
  apply list_elem_of_lookup in Hr1 as [i Hi].
  apply list_elem_of_lookup in Hr2 as [j Hj].
  exists i, j, (socket_to_emit s a r1 (relayEvent data)),
    (socket_to_emit s a r2 (relayEvent data)).
  split; [intros ->; congruence|].
  rewrite !list_lookup_fmap, Hi, Hj. simpl.
  repeat split; by apply elem_of_difference.
Qed.

Lemma shared_rooms_relay_twice_witness :
  length (on_videoEvent "a" (play_at 1000) shared_two).2 = 2 ∧
  ∃ i j e1 e2,
    i ≠ j ∧
    (on_videoEvent "a" (play_at 1000) shared_two).2 !! i = Some e1 ∧
    (on_videoEvent "a" (play_at 1000) shared_two).2 !! j = Some e2 ∧
    "b" ∈ recipients e1 ∧ message e1 = relayEvent (play_at 1000) ∧
    "b" ∈ recipients e2 ∧ message e2 = relayEvent (play_at 1000).
Proof.
  apply (shared_rooms_relay_twice shared_two "a" "b" "R1" "R2" (play_at 1000));
    try discriminate;
    apply (bool_decide_unpack _); vm_compute; exact I.
Defined.

(** ** Invariants of the running server *)

Section Running.
Implicit Types (s : Server) (sid rid : string) (i : Input) (m : ClientMsg).

Lemma dispatch_key sid m s : key_ok s → key_ok (dispatch sid m s).1.
Proof.
  intros Hs rid room. destruct m as [r url | r | r url | data]; simpl.
  - destruct (decide (r = rid)) as [->|Hne].
    + rewrite lookup_insert_eq. by intros [= <-].
    + rewrite lookup_insert_ne by done. apply Hs.
  - unfold on_joinRoom. simpl. destruct (roomStore s !! r); apply Hs.
  - unfold on_updateRoom. destruct (roomStore s !! r) as [old|] eqn:E; [|apply Hs].
    simpl. destruct (decide (r = rid)) as [->|Hne].
    + rewrite lookup_insert_eq. intros [= <-]. apply (Hs _ _ E).
    + rewrite lookup_insert_ne by done. apply Hs.
  - rewrite on_videoEvent_store.
    destruct (roomStore s !! rid) as [old|] eqn:E; case_decide; simpl;
      intros [= <-]; rewrite ?reconcile_roomId; eauto.
Qed.

Lemma run_key trace s : key_ok s → key_ok (run trace s).
Proof.
  revert s. induction trace as [|i trace IH]; intros s Hs; [exact Hs|].
  apply IH. destruct i as [sid | sid m | sid]; [exact Hs | | exact Hs].
  by apply dispatch_key.
Qed.

Lemma handle_keeps_room i s rid :
  is_Some (roomStore s !! rid) → is_Some (roomStore (handle i s).1 !! rid).
Proof.
  intros Hroom. destruct i as [sid | sid [r url | r | r url | data] | sid];
    simpl; try exact Hroom.
  - rewrite lookup_insert_is_Some. destruct (decide (r = rid)); auto.
  - unfold on_joinRoom. simpl. by destruct (roomStore s !! r).
  - unfold on_updateRoom. destruct (roomStore s !! r); [|exact Hroom]. simpl.
    rewrite lookup_insert_is_Some. destruct (decide (r = rid)); auto.
  - rewrite on_videoEvent_store. case_decide; [by apply fmap_is_Some | exact Hroom].
Qed.

Lemma handle_snapshots_ok i s : store_ok s → Forall snapshot_ok (handle i s).2.
Proof.
  intros Hs. destruct i as [sid | sid [r url | r | r url | data] | sid]; simpl.
  - constructor.
  - apply Forall_singleton. apply created_ok.
  - unfold on_joinRoom. simpl. destruct (roomStore s !! r) as [room|] eqn:E; simpl.
    + apply Forall_singleton. apply (Hs _ _ E).
    + apply Forall_singleton. apply (created_ok r "").
  - unfold on_updateRoom. destruct (roomStore s !! r) as [room|] eqn:E; simpl.
    + apply Forall_singleton. apply (Hs _ _ E).
    + constructor.
  - apply Forall_forall. intros e (r & _ & ->)%relay_elem. exact I.
  - constructor.
Qed.

Lemma outputs_snapshots_ok trace s :
  Forall input_ok trace → store_ok s → Forall snapshot_ok (outputs trace s).
Proof.
  intros Htrace. revert s.
  induction Htrace as [|i trace Hi _ IH]; intros s Hs; simpl; [constructor|].
  apply Forall_app. split; [by apply handle_snapshots_ok|].
  apply IH. by apply handle_ok.
Qed.

(** While [b] is not connected, what another socket's input makes the
    server emit does not reach [b], and [b] stays unconnected. *)
Lemma handle_skips_unconnected b i s :
  b ∉ dom (socketRooms s) → not_from b i →
  (b ∉ dom (socketRooms (handle i s).1)) ∧
  (∀ e, e ∈ (handle i s).2 → b ∉ recipients e).
Proof.
  intros Hb Hi.
  assert (Hgroup : ∀ s', socketRooms s' = socketRooms s → ∀ r, b ∉ members s' r).
  { intros s' Heq r Hin. apply elem_of_members in Hin.
    unfold socket_rooms in Hin. rewrite Heq in Hin.
    apply not_elem_of_dom in Hb. rewrite Hb in Hin. by apply elem_of_nil in Hin. }
  assert (Hself : ∀ sid, sid ≠ b → b ∉ ({[ sid ]} : gset string)).
  { intros sid Hne Heq%elem_of_singleton. congruence. }
  destruct i as [sid | sid [r url | r | r url | data] | sid]; simpl in *.
  - split; [|by intros e ?%elem_of_nil].
    rewrite dom_insert_L.
    intros [Heq|Hin]%elem_of_union; [by apply (Hself sid) | by apply Hb].
  - split; [unfold join; by rewrite dom_alter_L|].
    intros e ->%list_elem_of_singleton. by apply Hself.
  - rewrite on_joinRoom_socketRooms. split; [unfold join; by rewrite dom_alter_L|].
    unfold on_joinRoom. simpl.
    destruct (roomStore s !! r); intros e ->%list_elem_of_singleton;
      by apply Hself.
  - unfold on_updateRoom. destruct (roomStore s !! r); simpl.
    + split; [exact Hb|]. intros e ->%list_elem_of_singleton. simpl.
      by apply Hgroup.
    + split; [exact Hb | by intros e ?%elem_of_nil].
  - rewrite on_videoEvent_socketRooms. split; [exact Hb|].
    intros e (r & _ & ->)%relay_elem. simpl.
    intros [Hin _]%elem_of_difference. by apply (Hgroup s eq_refl r).
  - split; [|by intros e ?%elem_of_nil].
    rewrite dom_delete_L. intros [Hin _]%elem_of_difference. by apply Hb.
Qed.
End Running.

(** X15. However the server got where it is, a room is stored under the id
    it carries: the [roomId] field of the room found at a key is that key. *)
Theorem stored_room_carries_its_key
    (trace : list Input) (rid : string) (room : RoomState) :
  roomStore (run trace init) !! rid = Some room → roomId room = rid.
Proof.
  apply (run_key trace init). intros r x H. simpl in H.
  by rewrite lookup_empty in H.
Qed.

Lemma stored_room_carries_its_key_witness :
  roomStore (run session init) !! "R1" =
    Some {| roomId := "R1"; videoUrl := "v2"; lastKnownTime := 7000;
            state := "playing" |} ∧
  "R1" = "R1".
Proof.
  assert (H : roomStore (run session init) !! "R1" =
    Some {| roomId := "R1"; videoUrl := "v2"; lastKnownTime := 7000;
            state := "playing" |}) by reflexivity.
  split; [exact H|].
  exact (stored_room_carries_its_key session "R1" _ H).
Defined.

(** X16. No input removes a room: a room that is in the store stays in it
    through every later connection, message and disconnection, also when
    the sockets that were in it are all gone. *)
Theorem rooms_are_never_removed (trace : list Input) (s : Server) (rid : string) :
  is_Some (roomStore s !! rid) → is_Some (roomStore (run trace s) !! rid).
Proof.
  revert s. induction trace as [|i trace IH]; intros s Hroom; [exact Hroom|].
  apply IH. by apply handle_keeps_room.
Qed.

Lemma rooms_are_never_removed_witness :
  is_Some (roomStore two_rooms !! "R1") ∧
  is_Some (roomStore (run [disconnect "a"; disconnect "b";
                           incoming "c" (videoEvent (play_at 5))] two_rooms)
             !! "R1").
Proof.
  assert (H : is_Some (roomStore two_rooms !! "R1")).
  { exists room_v1. reflexivity. }
  split; [exact H|].
  exact (rooms_are_never_removed _ two_rooms "R1" H).
Defined.

(** X17. When every [videoEvent] received carries a time that is not
    negative, every snapshot the server sends, on create, join or update,
    has a [lastKnownTime] that is not negative and a [state] that is
    "playing" or "paused". *)
Theorem emitted_snapshots_well_formed (trace : list Input) :
  Forall input_ok trace →
  ∀ e snapshot,
    e ∈ outputs trace init → message e = syncVideo snapshot →
    (0 ≤ lastKnownTime snapshot)%Z ∧
    (state snapshot = "playing" ∨ state snapshot = "paused").
Proof.
  intros Htrace e snapshot He Hmsg.
  pose proof (outputs_snapshots_ok trace init Htrace init_ok) as Hall.
  rewrite Forall_forall in Hall. specialize (Hall e He).
  unfold snapshot_ok in Hall. by rewrite Hmsg in Hall.
Qed.

Lemma emitted_snapshots_well_formed_witness :
  Forall input_ok session ∧
  ∀ e snapshot,
    e ∈ outputs session init → message e = syncVideo snapshot →
    (0 ≤ lastKnownTime snapshot)%Z ∧
    (state snapshot = "playing" ∨ state snapshot = "paused").
Proof.
  assert (Hok : Forall input_ok session).
  { unfold session. repeat constructor; simpl; lia. }
  split; [exact Hok|].
  exact (emitted_snapshots_well_formed session Hok).
Defined.

(** X18. A snapshot sent in answer to [joinRoom] or on [updateRoom] names
    the room that was asked for: its [roomId] is the id in the request,
    for a stored room as for the default one. *)
Theorem snapshot_names_requested_room
    (trace : list Input) (sid rid url : string) (e : Emit) (snapshot : RoomState) :
  e ∈ (on_joinRoom sid rid (run trace init)).2 ∨
  e ∈ (on_updateRoom sid rid url (run trace init)).2 →
  message e = syncVideo snapshot →
  roomId snapshot = rid.
Proof.
  assert (Hkey : key_ok (run trace init)).
  { apply run_key. intros r x H. simpl in H. by rewrite lookup_empty in H. }
  unfold on_joinRoom, on_updateRoom. simpl.
  destruct (roomStore (run trace init) !! rid) as [room|] eqn:E; simpl;
    intros [He|He] Hmsg;
    try (by apply elem_of_nil in He);
    apply list_elem_of_singleton in He as ->; simpl in Hmsg;
    injection Hmsg as <-; simpl; eauto.
Qed.

Lemma snapshot_names_requested_room_witness :
  roomId {| roomId := "R1"; videoUrl := "v9"; lastKnownTime := 7000;
            state := "playing" |} = "R1".
Proof.
  apply (snapshot_names_requested_room session "a" "R1" "v9"
           {| recipients := {[ "a" ]};
              message := syncVideo {| roomId := "R1"; videoUrl := "v9";
                                      lastKnownTime := 7000;
                                      state := "playing" |} |}).
  - right. apply list_elem_of_singleton. vm_compute. reflexivity.
  - reflexivity.
Defined.

(** X19. A socket that has disconnected is sent nothing more: whatever
    the other sockets do afterwards, connecting, sending messages or
    leaving, no emission reaches it. *)
Theorem disconnected_socket_is_sent_nothing
    (s : Server) (b : string) (trace : list Input) :
  Forall (not_from b) trace →
  ∀ m, ¬ delivered (outputs trace (handle (disconnect b) s).1) b m.
Proof.
  intros Htrace m.
  assert (Hgone : b ∉ dom (socketRooms (handle (disconnect b) s).1)).
  { simpl. rewrite dom_delete_L. intros [_ Hb]%elem_of_difference.
    apply Hb. by apply elem_of_singleton. }
  revert Hgone. generalize (handle (disconnect b) s).1. clear s.
  induction Htrace as [|i trace Hi _ IH]; intros s Hgone (e & He & Hin & Hmsg).
  - by apply elem_of_nil in He.
  - destruct (handle_skips_unconnected b i s Hgone Hi) as [Hnext Hout].
    simpl in He. apply elem_of_app in He as [He|He].
    + by apply (Hout e).
    + apply (IH _ Hnext). exists e. by repeat split.
Qed.

Lemma disconnected_socket_is_sent_nothing_witness :
  Forall (not_from "b")
    [incoming "a" (updateRoom "R1" "v2"); incoming "a" (videoEvent (play_at 9))] ∧
  ∀ m, ¬ delivered
           (outputs [incoming "a" (updateRoom "R1" "v2");
                     incoming "a" (videoEvent (play_at 9))]
              (handle (disconnect "b") two_rooms).1) "b" m.
Proof.
  assert (H : Forall (not_from "b")
    [incoming "a" (updateRoom "R1" "v2"); incoming "a" (videoEvent (play_at 9))]).
  { repeat constructor; discriminate. }
  split; [exact H|].
  exact (disconnected_socket_is_sent_nothing two_rooms "b" _ H).
Defined.

(** X20. A socket that joined a room before anybody created it is not told
    when another socket creates the room, but is in its group: the next
    [updateRoom] sends it the room, with the new URL at time 0 and
    "paused". *)
Theorem early_joiner_hears_updates_only
    (s : Server) (a b c rid url url' : string) :
  b ∈ dom (socketRooms s) →
  a ≠ b →
  let joined := (on_joinRoom b rid s).1 in
  let made := on_createRoom a rid url joined in
  (∀ m, ¬ delivered made.2 b m) ∧
  delivered (on_updateRoom c rid url' made.1).2 b
    (syncVideo {| roomId := rid; videoUrl := url';
                  lastKnownTime := 0; state := "paused" |}).
Proof.
  intros Hconn Hne joined made. split.
  - intros m (e & He & Hin & _). subst made. simpl in He.
    apply list_elem_of_singleton in He as ->. simpl in Hin.
    apply elem_of_singleton in Hin. congruence.
  - assert (Hb : b ∈ members made.1 rid).
    { apply (members_join joined _ a rid rid b); [reflexivity|]. left.
      apply (members_join s _ b rid rid b); [apply on_joinRoom_socketRooms|].
      by right. }
    unfold on_updateRoom. subst made. simpl. rewrite lookup_insert_eq. simpl.
    apply delivered_singleton. simpl. split; [exact Hb | reflexivity].
Qed.

Lemma early_joiner_hears_updates_only_witness :
  "c" ∈ dom (socketRooms two_rooms) ∧ "a" ≠ "c" ∧
  delivered
    (on_updateRoom "b" "R2" "v3"
       (on_createRoom "a" "R2" "v2" (on_joinRoom "c" "R2" two_rooms).1).1).2 "c"
    (syncVideo {| roomId := "R2"; videoUrl := "v3";
                  lastKnownTime := 0; state := "paused" |}).
Proof.
  assert (Hc : "c" ∈ dom (socketRooms two_rooms)).
  { apply (bool_decide_unpack _). vm_compute. exact I. }
  assert (Hne : "a" ≠ "c") by discriminate.
  split; [exact Hc|]. split; [exact Hne|].
  exact (proj2 (early_joiner_hears_updates_only
                  two_rooms "a" "c" "b" "R2" "v2" "v3" Hc Hne)).
Defined.

(** ** The room named by a socket's own id *)

(** The hypothesis of C2 that the sender is in its own-id room is met by
    every connected socket: a connection puts the socket there and no
    handler takes a socket out of a room. *)
Lemma handle_own_room (i : Input) (s : Server) :
  own_room_ok s → own_room_ok (handle i s).1.
Proof.
  intros Hs.
  assert (Hjoin : ∀ sid rid sid' l,
    join sid rid (socketRooms s) !! sid' = Some l → sid' ∈ l).
  { intros sid rid sid' l. unfold join. rewrite lookup_alter.
    case_decide as Heq; [subst sid'|apply Hs].
    destruct (socketRooms s !! sid) as [l0|] eqn:E; simpl; [|discriminate].
    intros [= <-]. apply elem_of_set_add. right. by apply (Hs sid). }
  destruct i as [sid | sid [r url | r | r url | data] | sid]; intros sid' l; simpl.
  - destruct (decide (sid = sid')) as [->|Hne].
    + rewrite lookup_insert_eq. intros [= <-]. by apply list_elem_of_singleton.
    + rewrite lookup_insert_ne by done. apply Hs.
  - apply Hjoin.
  - rewrite on_joinRoom_socketRooms. apply Hjoin.
  - unfold on_updateRoom. destruct (roomStore s !! r); apply Hs.
  - rewrite on_videoEvent_socketRooms. apply Hs.
  - destruct (decide (sid = sid')) as [->|Hne].
    + by rewrite lookup_delete_eq.
    + rewrite lookup_delete_ne by done. apply Hs.
Qed.

Lemma connected_socket_in_own_room (trace : list Input) (sid : string) :
  sid ∈ dom (socketRooms (run trace init)) →
  sid ∈ socket_rooms (run trace init) sid.
Proof.
  assert (Hinv : ∀ s, own_room_ok s → own_room_ok (run trace s)).
  { induction trace as [|i trace IH]; intros s Hs; [exact Hs|].
    apply IH. by apply handle_own_room. }
  intros [l Hl]%elem_of_dom. unfold socket_rooms. rewrite Hl. simpl.
  apply (Hinv init); [|exact Hl].
  intros x l0 H. simpl in H. by rewrite lookup_empty in H.
Qed.
